(** * Counter micro-rollup: state, transitions and the execution core

    A verification development for the counter rollup of the Stackr
    tutorial: [state.ts] (the [CounterState] class and its root hash),
    [transitions.ts] (the [increment] and [decrement] state transition
    functions), [genesis-state.json] and [stackr.config.ts].

    The counter is a JavaScript [number] that only ever holds integers:
    the genesis value is [0], the handlers add or subtract [1], and the
    root hash packs the value as a [uint256].  An integer-valued
    [number] is held in [Z], and the handlers' [+= 1] and [-= 1] are the
    additions and subtractions of [number]: the exact result rounded to
    the nearest double, which is the exact result up to
    [Number.MAX_SAFE_INTEGER = 2^53 - 1] and a rounded one beyond. *)

From Stdlib Require Import ZArith List String Bool Lia.
From Stdlib Require Import Init.Byte.
From ExtLib Require Import Structures.Monad Structures.MonadState Structures.MonadExc.
From ExtLib Require Import Data.Monads.StateMonad Data.Monads.EitherMonad.
Import ListNotations.

Local Open Scope Z_scope.

(* ===================================================================== *)
(** ** Keccak-256 *)
(* ===================================================================== *)

(** Modelled from the spec: [solidityPackedKeccak256] is imported by
    [state.ts] from ethers and is not among the repository's sources.  The
    spec asks for a pure function to a fixed-size hash; the hash named by
    the source is Keccak-256, written out here as the sponge over
    Keccak-f[1600] with rate 136 bytes and the original [0x01] padding.
    Lanes are 64-bit words held in [Z]; the state is the list of its 25
    lanes, lane [(x, y)] at index [x + 5 * y]. *)
Module Keccak.

Definition lane_mask : Z := Z.ones 64.

Definition rotl64 (x : Z) (n : Z) : Z :=
  Z.land (Z.lor (Z.shiftl x n) (Z.shiftr x (64 - n))) lane_mask.

Definition not64 (x : Z) : Z := Z.lxor x lane_mask.

Definition lane (st : list Z) (i : nat) : Z := nth i st 0.

Definition lane_xy (st : list Z) (x y : nat) : Z :=
  lane st ((x mod 5) + 5 * (y mod 5))%nat.

(** Rotation offsets of the rho step, in lane order. *)
Definition rho_offsets : list Z :=
  [  0;  1; 62; 28; 27;
    36; 44;  6; 55; 20;
     3; 10; 43; 25; 39;
    41; 45; 15; 21;  8;
    18;  2; 61; 56; 14 ].

(** Round constants of the iota step. *)
Definition round_constants : list Z :=
  [ 0x0000000000000001; 0x0000000000008082; 0x800000000000808A;
    0x8000000080008000; 0x000000000000808B; 0x0000000080000001;
    0x8000000080008081; 0x8000000000008009; 0x000000000000008A;
    0x0000000000000088; 0x0000000080008009; 0x000000008000000A;
    0x000000008000808B; 0x800000000000008B; 0x8000000000008089;
    0x8000000000008003; 0x8000000000008002; 0x8000000000000080;
    0x000000000000800A; 0x800000008000000A; 0x8000000080008081;
    0x8000000000008080; 0x0000000080000001; 0x8000000080008008 ].

Definition lanes_of (f : nat -> nat -> Z) : list Z :=
  map (fun i => f (i mod 5)%nat (i / 5)%nat) (seq 0 25).

Definition theta (st : list Z) : list Z :=
  let C x := fold_left Z.lxor (map (lane_xy st x) (seq 0 5)) 0 in
  let D x := Z.lxor (C (x + 4)%nat) (rotl64 (C (x + 1)%nat) 1) in
  lanes_of (fun x y => Z.lxor (lane_xy st x y) (D x)).

(** rho and pi together: the lane at [(x, y)] of the result is the lane
    at [(x + 3 * y, x)] of the argument, rotated by that lane's offset. *)
Definition rho_pi (st : list Z) : list Z :=
  lanes_of (fun x y =>
    let sx := ((x + 3 * y) mod 5)%nat in
    rotl64 (lane_xy st sx x) (nth (sx + 5 * x)%nat rho_offsets 0)).

Definition chi (st : list Z) : list Z :=
  lanes_of (fun x y =>
    Z.lxor (lane_xy st x y)
           (Z.land (not64 (lane_xy st (x + 1) y)) (lane_xy st (x + 2) y))).

Definition iota (rc : Z) (st : list Z) : list Z :=
  match st with
  | [] => []
  | l0 :: rest => Z.lxor l0 rc :: rest
  end.

Definition round (st : list Z) (rc : Z) : list Z :=
  iota rc (chi (rho_pi (theta st))).

Definition keccak_f (st : list Z) : list Z :=
  fold_left round round_constants st.

Definition rate : nat := 136.

Definition empty_state : list Z := repeat 0 25.

(** XOR one byte into the state at byte position [pos] (little-endian
    within each lane). *)
Definition xor_byte (st : list Z) (pos : nat) (b : Z) : list Z :=
  let i := (pos / 8)%nat in
  let sh := 8 * Z.of_nat (pos mod 8) in
  firstn i st ++ Z.lxor (lane st i) (Z.shiftl b sh) :: skipn (S i) st.

Definition byte_at (st : list Z) (pos : nat) : Z :=
  Z.land (Z.shiftr (lane st (pos / 8)) (8 * Z.of_nat (pos mod 8))) 255.

(** Absorb the message byte by byte, permuting whenever a block of
    [rate] bytes is complete. Returns the state and the position reached
    in the current block. *)
Fixpoint absorb (st : list Z) (pos : nat) (msg : list Z) : list Z * nat :=
  match msg with
  | [] => (st, pos)
  | b :: msg' =>
      let st' := xor_byte st pos b in
      if (S pos =? rate)%nat then absorb (keccak_f st') 0 msg'
      else absorb st' (S pos) msg'
  end.

Definition pad_and_permute (st : list Z) (pos : nat) : list Z :=
  keccak_f (xor_byte (xor_byte st pos 0x01) (rate - 1) 0x80).

Definition squeeze (n : nat) (st : list Z) : list Z :=
  map (byte_at st) (seq 0 n).

Definition byte_to_Z (b : byte) : Z := Z.of_N (Byte.to_N b).

Definition byte_of_Z (z : Z) : byte :=
  match Byte.of_N (Z.to_N (z mod 256)) with
  | Some b => b
  | None => x00
  end.

Definition keccak256 (msg : list byte) : list byte :=
  let '(st, pos) := absorb empty_state 0 (map byte_to_Z msg) in
  map byte_of_Z (squeeze 32 (pad_and_permute st pos)).

End Keccak.

(* ===================================================================== *)
(** ** ethers: packed encoding and hashing *)
(* ===================================================================== *)

Module Ethers.

Definition BytesLike : Type := list byte.

(** The [n]-byte big-endian encoding of [v]. *)
Definition be_bytes (n : nat) (v : Z) : BytesLike :=
  map (fun i => Keccak.byte_of_Z (Z.shiftr v (8 * Z.of_nat (n - 1 - i))))
      (seq 0 n).

(** Modelled from the spec: [solidityPacked] is ethers' and is not among
    the repository's sources.  A [uint256] is packed as its 32-byte
    big-endian encoding; a value that is not a [uint256] (negative, or
    [2^256] and above) has no encoding and the call throws, which is
    [None] here, as does a type the model does not know or a length
    mismatch between the two lists. *)
Fixpoint solidityPacked (types : list string) (values : list Z)
  : option BytesLike :=
  match types, values with
  | [], [] => Some []
  | t :: types', v :: values' =>
      if (String.eqb t "uint256") && (0 <=? v) && (v <? 2 ^ 256) then
        match solidityPacked types' values' with
        | Some rest => Some (be_bytes 32 v ++ rest)
        | None => None
        end
      else None
  | _, _ => None
  end.

Definition solidityPackedKeccak256 (types : list string) (values : list Z)
  : option BytesLike :=
  option_map Keccak.keccak256 (solidityPacked types values).

End Ethers.

(* ===================================================================== *)
(** ** JavaScript numbers *)
(* ===================================================================== *)

(** The arithmetic of the language on the integer-valued numbers: a
    [number] is an IEEE 754 double, with 53 bits of precision, and [+]
    and [-] return the exact result rounded to the nearest double, ties
    to the even significand.  Integers of magnitude below [2^53] are all
    doubles; from [2^53] on, a double is a 53-bit significand [q] times
    [2^e].  A finite double plus or minus [1] never rounds to an
    infinity, so the exponent is left unbounded. *)
Module JSNumber.

Definition round_magnitude (a : Z) : Z :=
  if a <? 2 ^ 53 then a
  else
    let e := Z.log2 a - 52 in
    let q := a / 2 ^ e in
    let r := a mod 2 ^ e in
    let half := 2 ^ (e - 1) in
    let m :=
      if r <? half then q
      else if half <? r then q + 1
      else if Z.even q then q else q + 1 in
    m * 2 ^ e.

Definition round (z : Z) : Z := Z.sgn z * round_magnitude (Z.abs z).

(** [x + y] and [x - y] on numbers. *)
Definition add (x y : Z) : Z := round (x + y).

Definition sub (x y : Z) : Z := round (x - y).

End JSNumber.

(* ===================================================================== *)
(** ** The counter state machine *)
(* ===================================================================== *)

Module Counter.
Import Ethers.
Import MonadNotation.
Local Open Scope monad_scope.
Local Open Scope string_scope.

#[local] Existing Instance Monad_stateT.

(** *** state.ts *)

(** [class CounterState extends State<number>]: the wrapped value. *)
Record CounterState : Type := { state : Z }.

(** [getRootHash() { return solidityPackedKeccak256(["uint256"], [this.state]); }] *)
Definition getRootHash (this : CounterState) : option BytesLike :=
  solidityPackedKeccak256 ["uint256"] [state this].

(** *** transitions.ts *)

Inductive SolidityType : Type := UINT | ADDRESS | BYTES | STRING | BOOL.

(** [const schema = { timestamp: SolidityType.UINT } as const;] *)
Definition schema : list (string * SolidityType) := [("timestamp", UINT)].

(** The typed inputs an action carries under [schema]. *)
Record Inputs : Type := { timestamp : Z }.

(** A handler body runs with a local binding [state], initialised from
    the state container's value, which it may reassign, and it may abort
    with a message through [REQUIRE]. *)
Definition Handler : Type -> Type := stateT Z (sum string).

(** [REQUIRE(condition, message)]: continues when the condition holds,
    aborts the handler with the message otherwise. *)
Definition REQUIRE (condition : bool) (message : string) : Handler unit :=
  if condition then ret tt else raise message.

Record STF : Type := {
  stf_schema : list (string * SolidityType);
  handler : Inputs -> Handler Z
}.

(** [handler: ({ state }) => { state += 1; return state; }] *)
Definition increment : STF := {|
  stf_schema := schema;
  handler := fun _ =>
    modify (fun state => JSNumber.add state 1) ;;
    state <- get ;;
    ret state
|}.

(** [handler: ({ state }) => { state -= 1;
      REQUIRE(state > 0, "Cannot decrement below 0"); return state; }] *)
Definition decrement : STF := {|
  stf_schema := schema;
  handler := fun _ =>
    modify (fun state => JSNumber.sub state 1) ;;
    state <- get ;;
    REQUIRE (state >? 0) "Cannot decrement below 0" ;;
    state <- get ;;
    ret state
|}.

(** [export const transitions = { increment, decrement };] *)
Definition transitions : list (string * STF) :=
  [("increment", increment); ("decrement", decrement)].

(** Running a handler on a state value: [inr] of the returned state, or
    [inl] of the message of the failed [REQUIRE]. *)
Definition run_handler (stf : STF) (s : Z) (i : Inputs) : string + Z :=
  match runStateT (handler stf i) s with
  | inl message => inl message
  | inr (returned, _) => inr returned
  end.

(** *** genesis-state.json and machine.ts *)

Definition genesis : Z := 0.

Record StateMachine : Type := {
  id : string;
  initialState : Z;
  on : list (string * STF)
}.

Definition machine : StateMachine :=
  {| id := "counter"; initialState := genesis; on := transitions |}.

(** *** stackr.config.ts *)

Record SequencerConfig : Type := { blockSize : nat; blockTime : Z }.

Record Domain : Type := { name : string; version : string; salt : string }.

Record StackrConfig : Type := {
  isSandbox : bool;
  sequencer : SequencerConfig;
  domain : Domain
}.

Definition stackrConfig : StackrConfig := {|
  isSandbox := true;
  sequencer := {| blockSize := 16; blockTime := 1000 |};
  domain := {|
    name := "Stackr MVP v0";
    version := "1";
    salt := "0x0123456789abcdef0123456789abcdef0123456789abcdef0123456789abcdef"
  |}
|}.

End Counter.

(* ===================================================================== *)
(** ** Transition Executor *)
(* ===================================================================== *)

Module Executor.
Import Ethers Counter.
Local Open Scope string_scope.

(** [const incrementActionParams = { name, inputs, signature, msgSender }] *)
Record Action : Type := {
  action_name : string;
  inputs : Inputs;
  signature : string;
  msgSender : string
}.

Inductive ExecutionError : Type :=
| NotFoundError
| RequirementFailure (message : string)
| FatalExecutionError.

(** Lookup of a transition by its name in the [transitions] object. *)
Fixpoint resolve (on : list (string * STF)) (name : string) : option STF :=
  match on with
  | [] => None
  | (n, stf) :: on' => if String.eqb n name then Some stf else resolve on' name
  end.

(** Modelled from the spec: the Executor's [apply] belongs to the SDK and
    is not among the repository's sources.  Following section 4.4 it
    resolves the transition by name, runs the handler of the source on
    the current state and the action's typed inputs, and returns the new
    state with its root hash; a failed [REQUIRE] is a requirement
    failure, a state without a root hash is a fatal error. *)
Definition apply (currentState : Z) (a : Action)
  : ExecutionError + (Z * BytesLike) :=
  match resolve transitions (action_name a) with
  | None => inl NotFoundError
  | Some stf =>
      match run_handler stf currentState (inputs a) with
      | inl message => inl (RequirementFailure message)
      | inr newState =>
          match getRootHash {| state := newState |} with
          | Some rootHash => inr (newState, rootHash)
          | None => inl FatalExecutionError
          end
      end
  end.

(** The state container after one [apply]: the new state when the action
    is accepted, the current state when it is not. *)
Definition commit_state (currentState : Z)
  (r : ExecutionError + (Z * BytesLike)) : Z :=
  match r with
  | inr (newState, _) => newState
  | inl _ => currentState
  end.

Definition accepted (r : ExecutionError + (Z * BytesLike)) : bool :=
  match r with inr _ => true | inl _ => false end.

(** Submitting a list of actions in order: the final state together with
    the outcome of each action. *)
Fixpoint submit_all (currentState : Z) (actions : list Action)
  : Z * list (ExecutionError + (Z * BytesLike)) :=
  match actions with
  | [] => (currentState, [])
  | a :: rest =>
      let r := apply currentState a in
      let '(final, outcomes) := submit_all (commit_state currentState r) rest in
      (final, r :: outcomes)
  end.


Definition action (name : string) (now : Z) : Action :=
  {| action_name := name; inputs := {| timestamp := now |};
     signature := ""; msgSender := "" |}.

End Executor.

(* ===================================================================== *)
(** ** Block Assembler *)
(* ===================================================================== *)

(** Modelled from the spec: the Block Assembler belongs to the SDK; the
    repository holds only its configuration ([sequencer.blockSize] and
    [sequencer.blockTime]).  Following sections 3 and 4.5: an open block
    collects the accepted actions with their state roots and records the
    rejected ones with their reason; it seals when the number of accepted
    actions reaches [blockSize] or when the block timer fires
    [blockTime] after the block was opened, whichever comes first; a
    fatal executor error discards the open block, rolls the state back to
    the snapshot taken when the block was opened, and halts assembly.
    Time is the logical time stamped on the events. *)
Module Sequencer.
Import Ethers Counter Executor.

Record Applied : Type := { applied_action : Action; stateRoot : BytesLike }.

Record Rejected : Type := { rejected_action : Action; reason : ExecutionError }.

Record Block : Type := {
  actions : list Applied;
  rejections : list Rejected;
  preStateRoot : BytesLike;
  postStateRoot : BytesLike
}.

Record Assembler : Type := {
  current : Z;
  currentRoot : BytesLike;
  snapshot : Z;
  snapshotRoot : BytesLike;
  openedAt : Z;
  pending : list Applied;
  pendingRejections : list Rejected;
  sealedBlocks : list Block;
  halted : bool
}.

Inductive Event : Type :=
| Submit (now : Z) (a : Action)
| Tick (now : Z).

(** Start of assembly on the genesis state, which must have a root. *)
Definition init (genesisState : Z) (now : Z) : option Assembler :=
  match getRootHash {| state := genesisState |} with
  | None => None
  | Some root =>
      Some {| current := genesisState; currentRoot := root;
              snapshot := genesisState; snapshotRoot := root;
              openedAt := now; pending := []; pendingRejections := [];
              sealedBlocks := []; halted := false |}
  end.

(** Seal the open block and open the next one at time [now]. *)
Definition seal (asm : Assembler) (now : Z) : Assembler :=
  {| current := current asm; currentRoot := currentRoot asm;
     snapshot := current asm; snapshotRoot := currentRoot asm;
     openedAt := now; pending := []; pendingRejections := [];
     sealedBlocks := sealedBlocks asm ++
       [ {| actions := pending asm;
            rejections := pendingRejections asm;
            preStateRoot := snapshotRoot asm;
            postStateRoot := currentRoot asm |} ];
     halted := halted asm |}.

(** Discard the open block after a fatal error. *)
Definition abort (asm : Assembler) : Assembler :=
  {| current := snapshot asm; currentRoot := snapshotRoot asm;
     snapshot := snapshot asm; snapshotRoot := snapshotRoot asm;
     openedAt := openedAt asm; pending := []; pendingRejections := [];
     sealedBlocks := sealedBlocks asm; halted := true |}.

Definition accept (asm : Assembler) (a : Action) (newState : Z)
  (root : BytesLike) : Assembler :=
  {| current := newState; currentRoot := root;
     snapshot := snapshot asm; snapshotRoot := snapshotRoot asm;
     openedAt := openedAt asm;
     pending := pending asm ++ [ {| applied_action := a; stateRoot := root |} ];
     pendingRejections := pendingRejections asm;
     sealedBlocks := sealedBlocks asm; halted := halted asm |}.

Definition reject (asm : Assembler) (a : Action) (e : ExecutionError)
  : Assembler :=
  {| current := current asm; currentRoot := currentRoot asm;
     snapshot := snapshot asm; snapshotRoot := snapshotRoot asm;
     openedAt := openedAt asm; pending := pending asm;
     pendingRejections := pendingRejections asm ++
       [ {| rejected_action := a; reason := e |} ];
     sealedBlocks := sealedBlocks asm; halted := halted asm |}.

Definition step (cfg : SequencerConfig) (asm : Assembler) (ev : Event)
  : Assembler :=
  if halted asm then asm else
  match ev with
  | Tick now =>
      if blockTime cfg <=? now - openedAt asm then seal asm now else asm
  | Submit now a =>
      match apply (current asm) a with
      | inr (newState, root) =>
          let asm' := accept asm a newState root in
          if (List.length (pending asm') =? blockSize cfg)%nat then seal asm' now
          else asm'
      | inl FatalExecutionError => abort asm
      | inl e => reject asm a e
      end
  end.

Definition run (cfg : SequencerConfig) (asm : Assembler) (events : list Event)
  : Assembler :=
  fold_left (step cfg) events asm.


(** The state roots recorded for the accepted actions, over the sealed
    blocks and the open one, in order. *)
Definition recorded_roots (asm : Assembler) : list BytesLike :=
  map stateRoot (List.concat (map actions (sealedBlocks asm)) ++ pending asm).

(** The roots the assembler holds are the root hashes of the states it
    holds, and an open block without accepted actions still stands at
    the snapshot taken when it was opened. *)
Definition consistent (asm : Assembler) : Prop :=
  getRootHash {| state := current asm |} = Some (currentRoot asm) /\
  getRootHash {| state := snapshot asm |} = Some (snapshotRoot asm) /\
  (pending asm = [] ->
   current asm = snapshot asm /\ currentRoot asm = snapshotRoot asm).




End Sequencer.

(* ===================================================================== *)
(** ** Batch Committer *)
(* ===================================================================== *)

(** Modelled from the spec: the Batch Committer belongs to the SDK and
    is not among the repository's sources.  Following section 4.6 the
    commitment is a hash chain over the post-state roots of the sealed
    blocks, in block order; the committer numbers its batches and keeps
    them for delivery. *)
Module Committer.
Import Ethers Sequencer.

Record Batch : Type := {
  batchId : nat;
  orderedBlockRoots : list BytesLike;
  commitment : BytesLike
}.

Record BatchCommitter : Type := {
  nextBatchId : nat;
  undelivered : list Batch
}.

Definition chain (acc root : BytesLike) : BytesLike :=
  Keccak.keccak256 (acc ++ root).

Definition aggregate (roots : list BytesLike) : BytesLike :=
  fold_left chain roots (repeat x00 32).

Definition commit (c : BatchCommitter) (sealedBlocks : list Block)
  : BatchCommitter * Batch :=
  let roots := map postStateRoot sealedBlocks in
  let batch := {| batchId := nextBatchId c;
                  orderedBlockRoots := roots;
                  commitment := aggregate roots |} in
  ({| nextBatchId := S (nextBatchId c);
      undelivered := undelivered c ++ [batch] |}, batch).

End Committer.

(* ===================================================================== *)
(** * Properties *)
(* ===================================================================== *)

Import Ethers Counter Executor Sequencer Committer.
Local Open Scope string_scope.
Local Open Scope list_scope.
Local Open Scope Z_scope.

(** ** Keccak-256 and the packed encoding *)

(** Known digests: the empty message, and the packed [uint256] values
    [0] and [1]. *)
Example keccak256_empty :
  map Keccak.byte_to_Z (Keccak.keccak256 []) =
  [ 0xc5; 0xd2; 0x46; 0x01; 0x86; 0xf7; 0x23; 0x3c;
    0x92; 0x7e; 0x7d; 0xb2; 0xdc; 0xc7; 0x03; 0xc0;
    0xe5; 0x00; 0xb6; 0x53; 0xca; 0x82; 0x27; 0x3b;
    0x7b; 0xfa; 0xd8; 0x04; 0x5d; 0x85; 0xa4; 0x70 ].
Proof. vm_compute. reflexivity. Qed.

Example rootHash_of_zero :
  option_map (map Keccak.byte_to_Z) (getRootHash {| state := 0 |}) =
  Some [ 0x29; 0x0d; 0xec; 0xd9; 0x54; 0x8b; 0x62; 0xa8;
         0xd6; 0x03; 0x45; 0xa9; 0x88; 0x38; 0x6f; 0xc8;
         0x4b; 0xa6; 0xbc; 0x95; 0x48; 0x40; 0x08; 0xf6;
         0x36; 0x2f; 0x93; 0x16; 0x0e; 0xf3; 0xe5; 0x63 ].
Proof. vm_compute. reflexivity. Qed.

Example rootHash_of_one :
  option_map (map Keccak.byte_to_Z) (getRootHash {| state := 1 |}) =
  Some [ 0xb1; 0x0e; 0x2d; 0x52; 0x76; 0x12; 0x07; 0x3b;
         0x26; 0xee; 0xcd; 0xfd; 0x71; 0x7e; 0x6a; 0x32;
         0x0c; 0xf4; 0x4b; 0x4a; 0xfa; 0xc2; 0xb0; 0x73;
         0x2d; 0x9f; 0xcb; 0xe2; 0xb7; 0xfa; 0x0c; 0xf6 ].
Proof. vm_compute. reflexivity. Qed.

Lemma keccak256_length (msg : list byte) :
  List.length (Keccak.keccak256 msg) = 32%nat.
Proof.
  unfold Keccak.keccak256.
  destruct (Keccak.absorb _ _ _) as [st pos].
  unfold Keccak.squeeze.
  now rewrite !length_map, length_seq.
Qed.

Lemma be_bytes_length (n : nat) (v : Z) : List.length (be_bytes n v) = n.
Proof. unfold be_bytes. now rewrite length_map, length_seq. Qed.

Lemma getRootHash_in_range (s : Z) :
  0 <= s < 2 ^ 256 ->
  getRootHash {| state := s |} = Some (Keccak.keccak256 (be_bytes 32 s)).
Proof.
  intros [Hlo Hhi].
  unfold getRootHash, solidityPackedKeccak256, solidityPacked; cbn [state].
  rewrite String.eqb_refl.
  apply Z.leb_le in Hlo. apply Z.ltb_lt in Hhi.
  rewrite Hlo, Hhi. cbn [andb option_map].
  now rewrite app_nil_r.
Qed.

Lemma getRootHash_out_of_range (s : Z) :
  s < 0 \/ 2 ^ 256 <= s -> getRootHash {| state := s |} = None.
Proof.
  intros H.
  unfold getRootHash, solidityPackedKeccak256, solidityPacked; cbn [state].
  rewrite String.eqb_refl.
  destruct H as [H | H].
  - apply Z.leb_gt in H. now rewrite H.
  - apply Z.ltb_ge in H. rewrite H. now rewrite andb_false_r.
Qed.

Lemma getRootHash_some (s : Z) (h : BytesLike) :
  getRootHash {| state := s |} = Some h ->
  0 <= s < 2 ^ 256 /\ h = Keccak.keccak256 (be_bytes 32 s).
Proof.
  intros H.
  destruct (Z_lt_ge_dec s 0) as [Hneg | Hnn].
  - rewrite getRootHash_out_of_range in H by (left; exact Hneg). discriminate.
  - destruct (Z_lt_ge_dec s (2 ^ 256)) as [Hlt | Hge].
    + rewrite getRootHash_in_range in H by lia.
      split; [lia | congruence].
    + rewrite getRootHash_out_of_range in H by (right; lia). discriminate.
Qed.

(** ** JavaScript numbers *)

Lemma round_magnitude_small (a : Z) :
  a <= 2 ^ 53 -> JSNumber.round_magnitude a = a.
Proof.
  intros H. unfold JSNumber.round_magnitude.
  destruct (Z.ltb_spec a (2 ^ 53)) as [Hlt | Hge]; [reflexivity |].
  assert (a = 2 ^ 53) by lia. subst a. vm_compute. reflexivity.
Qed.

(** Up to [2^53] in magnitude every integer is a double: nothing rounds. *)
Lemma round_exact (z : Z) :
  - 2 ^ 53 <= z <= 2 ^ 53 -> JSNumber.round z = z.
Proof.
  intros H. unfold JSNumber.round.
  rewrite round_magnitude_small by lia.
  rewrite Z.mul_comm. apply Z.abs_sgn.
Qed.

Lemma round_magnitude_pos (a : Z) :
  1 <= a -> 1 <= JSNumber.round_magnitude a.
Proof.
  intros Ha. unfold JSNumber.round_magnitude.
  destruct (Z.ltb_spec a (2 ^ 53)) as [Hlt | Hge]; [exact Ha |].
  cbv zeta.
  assert (Hlog : 53 <= Z.log2 a) by (apply Z.log2_le_pow2; lia).
  set (e := Z.log2 a - 52).
  assert (He : 1 <= e) by (unfold e; lia).
  assert (Hpow : 0 < 2 ^ e) by (apply Z.pow_pos_nonneg; lia).
  assert (Hle : 2 ^ e <= a).
  { transitivity (2 ^ Z.log2 a).
    - apply Z.pow_le_mono_r; unfold e; lia.
    - apply Z.log2_spec. lia. }
  assert (Hq : 1 <= a / 2 ^ e) by (apply Z.div_le_lower_bound; lia).
  assert (Hm : 1 <=
    (if a mod 2 ^ e <? 2 ^ (e - 1) then a / 2 ^ e
     else if 2 ^ (e - 1) <? a mod 2 ^ e then a / 2 ^ e + 1
     else if Z.even (a / 2 ^ e) then a / 2 ^ e else a / 2 ^ e + 1)).
  { destruct (a mod 2 ^ e <? 2 ^ (e - 1)); [lia |].
    destruct (2 ^ (e - 1) <? a mod 2 ^ e); [lia |].
    destruct (Z.even (a / 2 ^ e)); lia. }
  nia.
Qed.

(** Rounding keeps the sign: a positive integer rounds to a positive
    one, a negative integer to a negative one. *)
Lemma round_pos (z : Z) : 1 <= z -> 1 <= JSNumber.round z.
Proof.
  intros H. unfold JSNumber.round.
  rewrite Z.sgn_pos, Z.abs_eq by lia.
  pose proof (round_magnitude_pos z H). lia.
Qed.

Lemma round_neg (z : Z) : z <= -1 -> JSNumber.round z <= -1.
Proof.
  intros H. unfold JSNumber.round.
  rewrite Z.sgn_neg by lia.
  pose proof (round_magnitude_pos (Z.abs z) ltac:(lia)). lia.
Qed.

Lemma round_nonpos (z : Z) : z <= 0 -> JSNumber.round z <= 0.
Proof.
  intros H. destruct (Z.eq_dec z 0) as [-> | Hne].
  - vm_compute. discriminate.
  - pose proof (round_neg z ltac:(lia)). lia.
Qed.

Lemma add_exact (x y : Z) :
  - 2 ^ 53 <= x + y <= 2 ^ 53 -> JSNumber.add x y = x + y.
Proof. apply round_exact. Qed.

Lemma sub_exact (x y : Z) :
  - 2 ^ 53 <= x - y <= 2 ^ 53 -> JSNumber.sub x y = x - y.
Proof. apply round_exact. Qed.

(** ** The handlers *)

Lemma increment_runs (s : Z) (i : Inputs) :
  runStateT (handler increment i) s =
  inr (JSNumber.add s 1, JSNumber.add s 1).
Proof. reflexivity. Qed.

Lemma decrement_runs (s : Z) (i : Inputs) :
  runStateT (handler decrement i) s =
  if JSNumber.sub s 1 >? 0 then inr (JSNumber.sub s 1, JSNumber.sub s 1)
  else inl "Cannot decrement below 0".
Proof.
  cbn. unfold REQUIRE. destruct (JSNumber.sub s 1 >? 0); reflexivity.
Qed.

Lemma run_increment (s : Z) (i : Inputs) :
  run_handler increment s i = inr (JSNumber.add s 1).
Proof. unfold run_handler. now rewrite increment_runs. Qed.

Lemma run_increment_exact (s : Z) (i : Inputs) :
  - 2 ^ 53 <= s <= 2 ^ 53 - 1 -> run_handler increment s i = inr (s + 1).
Proof. intros H. rewrite run_increment, add_exact by lia. reflexivity. Qed.

Lemma run_decrement_ok (s : Z) (i : Inputs) :
  2 <= s -> run_handler decrement s i = inr (JSNumber.sub s 1).
Proof.
  intros H. unfold run_handler. rewrite decrement_runs.
  pose proof (round_pos (s - 1) ltac:(lia)) as Hpos.
  fold (JSNumber.sub s 1) in Hpos.
  destruct (Z.gtb_spec (JSNumber.sub s 1) 0); [reflexivity | lia].
Qed.

Lemma run_decrement_exact (s : Z) (i : Inputs) :
  2 <= s <= 2 ^ 53 -> run_handler decrement s i = inr (s - 1).
Proof.
  intros H. rewrite run_decrement_ok, sub_exact by lia. reflexivity.
Qed.

Lemma run_decrement_fails (s : Z) (i : Inputs) :
  s < 2 -> run_handler decrement s i = inl "Cannot decrement below 0".
Proof.
  intros H. unfold run_handler. rewrite decrement_runs.
  pose proof (round_nonpos (s - 1) ltac:(lia)) as Hneg.
  fold (JSNumber.sub s 1) in Hneg.
  destruct (Z.gtb_spec (JSNumber.sub s 1) 0); [lia | reflexivity].
Qed.

(** The [transitions] object has exactly the two keys. *)
Lemma resolve_transitions (name : string) :
  resolve transitions name =
  if String.eqb "increment" name then Some increment
  else if String.eqb "decrement" name then Some decrement
  else None.
Proof. reflexivity. Qed.

Lemma apply_increment (s : Z) (a : Action) :
  action_name a = "increment" ->
  apply s a =
  match getRootHash {| state := JSNumber.add s 1 |} with
  | Some rootHash => inr (JSNumber.add s 1, rootHash)
  | None => inl FatalExecutionError
  end.
Proof.
  intros Hn. unfold apply. rewrite resolve_transitions, Hn.
  rewrite String.eqb_refl. now rewrite run_increment.
Qed.

Lemma apply_decrement_fails (s : Z) (a : Action) :
  action_name a = "decrement" -> s < 2 ->
  apply s a = inl (RequirementFailure "Cannot decrement below 0").
Proof.
  intros Hn Hs. unfold apply. rewrite resolve_transitions, Hn.
  change (String.eqb "increment" "decrement") with false.
  change (String.eqb "decrement" "decrement") with true. cbv iota.
  now rewrite run_decrement_fails.
Qed.

Lemma apply_decrement_ok (s : Z) (a : Action) :
  action_name a = "decrement" -> 2 <= s ->
  apply s a =
  match getRootHash {| state := JSNumber.sub s 1 |} with
  | Some rootHash => inr (JSNumber.sub s 1, rootHash)
  | None => inl FatalExecutionError
  end.
Proof.
  intros Hn Hs. unfold apply. rewrite resolve_transitions, Hn.
  change (String.eqb "increment" "decrement") with false.
  change (String.eqb "decrement" "decrement") with true. cbv iota.
  now rewrite run_decrement_ok.
Qed.

Lemma apply_unknown (s : Z) (a : Action) :
  action_name a <> "increment" -> action_name a <> "decrement" ->
  apply s a = inl NotFoundError.
Proof.
  intros Hi Hd. unfold apply. rewrite resolve_transitions.
  destruct (String.eqb_spec "increment" (action_name a)); [congruence |].
  destruct (String.eqb_spec "decrement" (action_name a)); [congruence |].
  reflexivity.
Qed.

(** An accepted action is an increment or a decrement, and the state it
    leaves has the root hash returned with it; nothing else changes the
    state container. *)
Lemma apply_accepted (s : Z) (a : Action) (newState : Z) (root : BytesLike) :
  apply s a = inr (newState, root) ->
  getRootHash {| state := newState |} = Some root /\
  ((action_name a = "increment" /\ newState = JSNumber.add s 1) \/
   (action_name a = "decrement" /\ newState = JSNumber.sub s 1 /\ 2 <= s)).
Proof.
  intros H.
  destruct (String.eqb_spec "increment" (action_name a)) as [Ei | Ni].
  - symmetry in Ei. rewrite (apply_increment s a Ei) in H.
    destruct (getRootHash {| state := JSNumber.add s 1 |}) eqn:Hr;
      [| discriminate].
    inversion H; subst. split; [exact Hr | left; auto].
  - destruct (String.eqb_spec "decrement" (action_name a)) as [Ed | Nd].
    + symmetry in Ed. destruct (Z_lt_ge_dec s 2) as [Hlt | Hge].
      * rewrite (apply_decrement_fails s a Ed Hlt) in H. discriminate.
      * rewrite (apply_decrement_ok s a Ed) in H by lia.
        destruct (getRootHash {| state := JSNumber.sub s 1 |}) eqn:Hr;
          [| discriminate].
        inversion H; subst. split; [exact Hr | right; repeat split; auto; lia].
    + rewrite apply_unknown in H by congruence. discriminate.
Qed.

(** The state an accepted action leaves is at least [1] when the action
    is a decrement, and at least [1] when it is an increment on a state
    that is not negative. *)
Lemma apply_accepted_positive (s : Z) (a : Action) (newState : Z)
  (root : BytesLike) :
  apply s a = inr (newState, root) -> 0 <= s -> 1 <= newState.
Proof.
  intros H Hs. apply apply_accepted in H.
  destruct H as [_ [[_ ->] | [_ [-> ?]]]].
  - apply round_pos. lia.
  - apply round_pos. lia.
Qed.

Lemma commit_state_nonneg (s : Z) (a : Action) :
  0 <= s -> 0 <= commit_state s (apply s a).
Proof.
  intros Hs. destruct (apply s a) as [e | [newState root]] eqn:H; cbn.
  - exact Hs.
  - pose proof (apply_accepted_positive s a newState root H Hs). lia.
Qed.

Lemma submit_all_nonneg (actions : list Action) :
  forall s, 0 <= s -> 0 <= fst (submit_all s actions).
Proof.
  induction actions as [| a rest IH]; intros s Hs; cbn.
  - exact Hs.
  - specialize (IH (commit_state s (apply s a)) (commit_state_nonneg s a Hs)).
    destruct (submit_all (commit_state s (apply s a)) rest) as [final outcomes].
    exact IH.
Qed.

(** ** The transitions of the source *)

(** C9, as amended: the increment handler is total and never rejects.
    For every state value [s] and every typed input it runs to
    completion and never aborts with a requirement failure; what it
    returns is the number [s + 1], which is exactly [s + 1] for every
    [s] from [-2^53] to [2^53 - 1]. *)
Theorem increment_total_adds_one : forall (s : Z) (i : Inputs),
  run_handler increment s i = inr (JSNumber.add s 1) /\
  (forall message, run_handler increment s i <> inl message) /\
  (- 2 ^ 53 <= s <= 2 ^ 53 - 1 ->
   run_handler increment s i = inr (s + 1) /\
   runStateT (handler increment i) s = inr (s + 1, s + 1)).
Proof.
  intros s i. rewrite run_increment.
  split; [reflexivity |]. split; [discriminate |].
  intros Hs. rewrite increment_runs, add_exact by lia.
  split; reflexivity.
Qed.

(** C9, as stated, fails at [2^53]: there [state += 1] gives [2^53]
    again, [2^53 + 1] not being a double. *)
Lemma increment_rounds_at_two_to_the_53 :
  run_handler increment (2 ^ 53) {| timestamp := 0 |} = inr (2 ^ 53) /\
  2 ^ 53 <> 2 ^ 53 + 1.
Proof. split; [vm_compute; reflexivity | lia]. Qed.

(** C5, as amended: the decrement handler applied to [s] succeeds
    exactly when [s >= 2]; it then returns the number [s - 1], which is
    exactly [s - 1] for every [s] up to [2^53].  In every other case,
    and so in particular from state [1] (which would produce [0]), the
    [REQUIRE] that tests [state > 0] after the subtraction aborts it
    with the message "Cannot decrement below 0". *)
Theorem decrement_succeeds_iff_at_least_two : forall (s : Z) (i : Inputs),
  (2 <= s <-> run_handler decrement s i = inr (JSNumber.sub s 1)) /\
  (2 <= s <-> exists r, run_handler decrement s i = inr r) /\
  (s < 2 <-> run_handler decrement s i = inl "Cannot decrement below 0") /\
  (2 <= s <= 2 ^ 53 -> run_handler decrement s i = inr (s - 1)) /\
  run_handler decrement 1 i = inl "Cannot decrement below 0".
Proof.
  intros s i.
  assert (Hone : run_handler decrement 1 i = inl "Cannot decrement below 0")
    by (apply run_decrement_fails; lia).
  destruct (Z_lt_ge_dec s 2) as [Hlt | Hge].
  - rewrite (run_decrement_fails s i Hlt).
    repeat split; intros; try lia; try discriminate; auto.
    destruct H as [r Hr]. discriminate.
  - rewrite (run_decrement_ok s i) by lia.
    repeat split; intros; try lia; try discriminate; auto.
    + eexists; reflexivity.
    + rewrite sub_exact by lia. reflexivity.
Qed.

(** C5, as stated, fails at [2^53 + 2]: there [state -= 1] gives
    [2^53], which is [s - 2], [2^53 + 1] not being a double. *)
Lemma decrement_rounds_above_two_to_the_53 :
  run_handler decrement (2 ^ 53 + 2) {| timestamp := 0 |} = inr (2 ^ 53) /\
  2 ^ 53 <> (2 ^ 53 + 2) - 1.
Proof. split; [vm_compute; reflexivity | lia]. Qed.

(** C10: the outcome of both handlers depends on the current state only,
    not on the typed inputs.  On the same state, a transition of the
    [transitions] object run with two different [timestamp] values gives
    the same result, and two actions that name the same transition are
    applied to the same new state. *)
Theorem handlers_ignore_inputs : forall (s t1 t2 : Z),
  run_handler increment s {| timestamp := t1 |} =
    run_handler increment s {| timestamp := t2 |} /\
  run_handler decrement s {| timestamp := t1 |} =
    run_handler decrement s {| timestamp := t2 |} /\
  (forall name stf i1 i2,
     resolve transitions name = Some stf ->
     run_handler stf s i1 = run_handler stf s i2) /\
  (forall a1 a2,
     action_name a1 = action_name a2 ->
     commit_state s (apply s a1) = commit_state s (apply s a2)).
Proof.
  intros s t1 t2. split; [reflexivity |]. split; [reflexivity |]. split.
  - intros name stf i1 i2 H. rewrite resolve_transitions in H.
    destruct (String.eqb "increment" name).
    + inversion H; subst. reflexivity.
    + destruct (String.eqb "decrement" name); [| discriminate].
      inversion H; subst. reflexivity.
  - intros a1 a2 Hname. unfold apply. rewrite Hname.
    destruct (resolve transitions (action_name a2)) as [stf |] eqn:Hr;
      [| reflexivity].
    rewrite resolve_transitions in Hr.
    destruct (String.eqb "increment" (action_name a2)).
    + inversion Hr; subst. reflexivity.
    + destruct (String.eqb "decrement" (action_name a2)); [| discriminate].
      inversion Hr; subst. reflexivity.
Qed.

(** C2: for every state value not greater than [0], genesis included, a
    decrement action is rejected with the requirement failure of the
    handler and the state container keeps its value; and from genesis no
    sequence of actions takes the counter below zero. *)
Theorem decrement_rejected_at_or_below_zero : forall (s : Z) (a : Action),
  s <= 0 ->
  action_name a = "decrement" ->
  run_handler decrement s (inputs a) = inl "Cannot decrement below 0" /\
  apply s a = inl (RequirementFailure "Cannot decrement below 0") /\
  commit_state s (apply s a) = s /\
  (forall actions, 0 <= fst (submit_all genesis actions)).
Proof.
  intros s a Hs Hname.
  split; [apply run_decrement_fails; lia |].
  rewrite (apply_decrement_fails s a Hname) by lia.
  split; [reflexivity |]. split; [reflexivity |].
  intros actions. apply submit_all_nonneg. unfold genesis. lia.
Qed.

Lemma decrement_rejected_at_genesis :
  genesis <= 0 /\
  apply genesis (action "decrement" 1700000000000) =
    inl (RequirementFailure "Cannot decrement below 0") /\
  commit_state genesis (apply genesis (action "decrement" 1700000000000)) =
    genesis.
Proof.
  split; [unfold genesis; lia |].
  pose proof (decrement_rejected_at_or_below_zero genesis
                (action "decrement" 1700000000000)
                ltac:(unfold genesis; lia) eq_refl)
    as (_ & Happly & Hstate & _).
  split; [exact Happly | exact Hstate].
Defined.

(** C1, as the code behaves: from genesis [0] the increment action is
    accepted and leaves state [1]; the decrement action that follows is
    rejected by the handler's [REQUIRE], and the state stays [1] rather
    than returning to [0]. *)
Theorem increment_then_decrement_from_genesis : forall (t1 t2 : Z),
  accepted (apply genesis (action "increment" t1)) = true /\
  commit_state genesis (apply genesis (action "increment" t1)) = 1 /\
  apply 1 (action "decrement" t2) =
    inl (RequirementFailure "Cannot decrement below 0") /\
  fst (submit_all genesis [action "increment" t1; action "decrement" t2]) = 1.
Proof.
  intros t1 t2.
  assert (Hinc : apply genesis (action "increment" t1) =
                 inr (1, Keccak.keccak256 (be_bytes 32 1))).
  { rewrite apply_increment by reflexivity.
    change (JSNumber.add genesis 1) with 1.
    now rewrite getRootHash_in_range by lia. }
  assert (Hdec : apply 1 (action "decrement" t2) =
                 inl (RequirementFailure "Cannot decrement below 0")).
  { apply apply_decrement_fails; [reflexivity | lia]. }
  cbn [submit_all]. rewrite Hinc. cbn [commit_state accepted].
  rewrite Hdec. cbn [commit_state fst].
  split; [reflexivity |]. split; [reflexivity |].
  split; reflexivity.
Qed.

(** ** The state root *)

(** C4: the root hash is a function of the state value alone: two
    [CounterState] objects holding equal values have equal root hashes;
    whenever a hash is returned it is 32 bytes long, being the Keccak-256
    digest of the 32-byte [uint256] encoding of the counter; and every
    counter value in the [uint256] range has one. *)
Theorem getRootHash_deterministic_fixed_size : forall (s1 s2 : CounterState),
  state s1 = state s2 ->
  getRootHash s1 = getRootHash s2 /\
  (forall h, getRootHash s1 = Some h ->
     List.length h = 32%nat /\
     h = Keccak.keccak256 (be_bytes 32 (state s1)) /\
     List.length (be_bytes 32 (state s1)) = 32%nat) /\
  (0 <= state s1 < 2 ^ 256 -> exists h, getRootHash s1 = Some h).
Proof.
  intros [v1] [v2] Heq. cbn [state] in *. subst v2.
  split; [reflexivity |]. split.
  - intros h Hh. apply getRootHash_some in Hh. destruct Hh as [_ ->].
    split; [apply keccak256_length |].
    split; [reflexivity | apply be_bytes_length].
  - intros Hrange. eexists. apply getRootHash_in_range. exact Hrange.
Qed.

Lemma getRootHash_at_genesis :
  state {| state := genesis |} = state {| state := 0 |} /\
  getRootHash {| state := genesis |} = getRootHash {| state := 0 |}.
Proof.
  split; [reflexivity |].
  apply (getRootHash_deterministic_fixed_size
           {| state := genesis |} {| state := 0 |}).
  reflexivity.
Defined.

(** ** Determinism of execution *)



Lemma run_cons (cfg : SequencerConfig) (asm : Assembler) (ev : Event)
  (events : list Event) :
  run cfg asm (ev :: events) = run cfg (step cfg asm ev) events.
Proof. reflexivity. Qed.









Lemma init_some (genesisState now : Z) (asm : Assembler) :
  init genesisState now = Some asm ->
  current asm = genesisState /\ recorded_roots asm = [] /\
  halted asm = false /\ consistent asm /\ pending asm = [] /\
  sealedBlocks asm = [] /\ openedAt asm = now.
Proof.
  unfold init. intros H.
  destruct (getRootHash {| state := genesisState |}) as [root |] eqn:Hr;
    [| discriminate].
  inversion H; subst; clear H. unfold consistent, recorded_roots; cbn.
  repeat split; auto.
Qed.

Lemma step_consistent (cfg : SequencerConfig) (asm : Assembler) (ev : Event) :
  consistent asm -> consistent (step cfg asm ev).
Proof.
  intros (Hcur & Hsnap & Hopen). unfold step.
  destruct (halted asm); [unfold consistent; auto |].
  destruct ev as [now a | now].
  - destruct (apply (current asm) a) as [e | [newState root]] eqn:Ha.
    + destruct e; unfold consistent; cbn; auto.
    + apply apply_accepted in Ha. destruct Ha as [Hroot _].
      destruct (List.length (pending (accept asm a newState root)) =? blockSize cfg)%nat;
        unfold consistent; cbn.
      * auto.
      * split; [exact Hroot |]. split; [exact Hsnap |].
        intros Hnil. apply app_eq_nil in Hnil. destruct Hnil; discriminate.
  - destruct (blockTime cfg <=? now - openedAt asm);
      unfold consistent; cbn; auto.
Qed.

Lemma run_consistent (cfg : SequencerConfig) (events : list Event) :
  forall asm, consistent asm -> consistent (run cfg asm events).
Proof.
  induction events as [| ev rest IH]; intros asm H.
  - exact H.
  - rewrite run_cons. apply IH, step_consistent, H.
Qed.











(** ** Block sealing *)

(** C7: in every state the assembler reaches from genesis without having
    halted, a block seals as soon as its number of accepted actions
    reaches [blockSize], whatever the time of the submission (so also
    when [blockTime] has not elapsed since the block was opened), and not
    before, a submission that is not accepted sealing nothing; and a
    timer tick [blockTime] or more after the block was
    opened seals the open block with whatever it holds, so also when it
    holds no action, the sealed block then having equal pre-state and
    post-state roots; an earlier tick seals nothing. *)
Theorem block_seals_on_size_or_time :
  forall (cfg : SequencerConfig) (genesisState t0 : Z) (asm0 : Assembler)
         (events : list Event),
  init genesisState t0 = Some asm0 ->
  halted (run cfg asm0 events) = false ->
  (forall now a newState root,
     apply (current (run cfg asm0 events)) a = inr (newState, root) ->
     S (List.length (pending (run cfg asm0 events))) = blockSize cfg ->
     sealedBlocks (step cfg (run cfg asm0 events) (Submit now a)) =
       sealedBlocks (run cfg asm0 events) ++
       [ {| actions := pending (run cfg asm0 events) ++
                       [ {| applied_action := a; stateRoot := root |} ];
            rejections := pendingRejections (run cfg asm0 events);
            preStateRoot := snapshotRoot (run cfg asm0 events);
            postStateRoot := root |} ] /\
     pending (step cfg (run cfg asm0 events) (Submit now a)) = [] /\
     openedAt (step cfg (run cfg asm0 events) (Submit now a)) = now) /\
  (forall now a,
     S (List.length (pending (run cfg asm0 events))) <> blockSize cfg ->
     sealedBlocks (step cfg (run cfg asm0 events) (Submit now a)) =
       sealedBlocks (run cfg asm0 events)) /\
  (forall now a e,
     apply (current (run cfg asm0 events)) a = inl e ->
     sealedBlocks (step cfg (run cfg asm0 events) (Submit now a)) =
       sealedBlocks (run cfg asm0 events)) /\
  (forall now,
     blockTime cfg <= now - openedAt (run cfg asm0 events) ->
     sealedBlocks (step cfg (run cfg asm0 events) (Tick now)) =
       sealedBlocks (run cfg asm0 events) ++
       [ {| actions := pending (run cfg asm0 events);
            rejections := pendingRejections (run cfg asm0 events);
            preStateRoot := snapshotRoot (run cfg asm0 events);
            postStateRoot := currentRoot (run cfg asm0 events) |} ] /\
     pending (step cfg (run cfg asm0 events) (Tick now)) = [] /\
     openedAt (step cfg (run cfg asm0 events) (Tick now)) = now) /\
  (forall now,
     blockTime cfg <= now - openedAt (run cfg asm0 events) ->
     pending (run cfg asm0 events) = [] ->
     exists b,
       sealedBlocks (step cfg (run cfg asm0 events) (Tick now)) =
         sealedBlocks (run cfg asm0 events) ++ [b] /\
       actions b = [] /\
       preStateRoot b = postStateRoot b) /\
  (forall now,
     now - openedAt (run cfg asm0 events) < blockTime cfg ->
     step cfg (run cfg asm0 events) (Tick now) = run cfg asm0 events).
Proof.
  intros cfg g t0 asm0 events Hinit Hh.
  apply init_some in Hinit. destruct Hinit as (_ & _ & _ & Hk & _).
  apply (run_consistent cfg events) in Hk.
  set (asm := run cfg asm0 events) in *.
  repeat apply conj.
  - intros now a newState root Ha Hsize.
    unfold step. rewrite Hh, Ha.
    assert (Hlen : (List.length (pending (accept asm a newState root)) =?
                    blockSize cfg)%nat = true).
    { apply Nat.eqb_eq. cbn [accept pending].
      rewrite length_app. cbn [List.length]. lia. }
    rewrite Hlen. cbn. auto.
  - intros now a Hsize.
    unfold step. rewrite Hh.
    destruct (apply (current asm) a) as [e | [newState root]] eqn:Ha.
    + destruct e; reflexivity.
    + assert (Hlen : (List.length (pending (accept asm a newState root)) =?
                      blockSize cfg)%nat = false).
      { apply Nat.eqb_neq. cbn [accept pending].
        rewrite length_app. cbn [List.length]. lia. }
      rewrite Hlen. reflexivity.
  - intros now a e Ha.
    unfold step. rewrite Hh, Ha. destruct e; reflexivity.
  - intros now Htime.
    unfold step. rewrite Hh.
    apply Z.leb_le in Htime. rewrite Htime. cbn. auto.
  - intros now Htime Hempty.
    unfold step. rewrite Hh.
    apply Z.leb_le in Htime. rewrite Htime.
    destruct Hk as (_ & _ & Hopen). destruct (Hopen Hempty) as [_ Hroot].
    eexists. split; [reflexivity |]. cbn. split; [exact Hempty |].
    symmetry. exact Hroot.
  - intros now Htime.
    unfold step. rewrite Hh.
    apply Z.leb_gt in Htime. now rewrite Htime.
Qed.

Lemma block_seals_in_configured_rollup :
  exists asm0,
    init genesis 0 = Some asm0 /\
    halted (run (sequencer stackrConfig) asm0
              (map (fun t => Submit t (action "increment" t))
                   [1; 2; 3; 4; 5; 6; 7; 8; 9; 10; 11; 12; 13; 14; 15]))
      = false /\
    pending
      (step (sequencer stackrConfig)
         (run (sequencer stackrConfig) asm0
            (map (fun t => Submit t (action "increment" t))
                 [1; 2; 3; 4; 5; 6; 7; 8; 9; 10; 11; 12; 13; 14; 15]))
         (Submit 16 (action "increment" 16))) = [] /\
    openedAt
      (step (sequencer stackrConfig)
         (run (sequencer stackrConfig) asm0
            (map (fun t => Submit t (action "increment" t))
                 [1; 2; 3; 4; 5; 6; 7; 8; 9; 10; 11; 12; 13; 14; 15]))
         (Submit 16 (action "increment" 16))) = 16.
Proof.
  destruct (init genesis 0) as [asm0 |] eqn:H0;
    [| vm_compute in H0; discriminate].
  exists asm0. split; [reflexivity |].
  pose proof (block_seals_on_size_or_time (sequencer stackrConfig) genesis 0
                asm0
                (map (fun t => Submit t (action "increment" t))
                   [1; 2; 3; 4; 5; 6; 7; 8; 9; 10; 11; 12; 13; 14; 15])
                H0) as T.
  vm_compute in H0. injection H0 as E. subst asm0.
  match type of T with
  | ?H -> _ => assert (Hh : H) by (vm_compute; reflexivity)
  end.
  split; [exact Hh |].
  destruct (T Hh) as (Hsize & _).
  destruct (Hsize 16 (action "increment" 16) 16
              (Keccak.keccak256 (be_bytes 32 16)))
    as (_ & Hpending & Hopened).
  - vm_compute. reflexivity.
  - vm_compute. reflexivity.
  - split; [exact Hpending | exact Hopened].
Defined.

(** ** Batch commitment *)

Lemma aggregate_length (roots : list BytesLike) :
  roots <> [] -> List.length (aggregate roots) = 32%nat.
Proof.
  unfold aggregate. generalize (repeat x00 32) as acc.
  induction roots as [| r rest IH]; intros acc Hne; [congruence |].
  cbn [fold_left]. destruct rest as [| r' rest'].
  - cbn. unfold chain. apply keccak256_length.
  - apply IH. discriminate.
Qed.

(** C6: committing is idempotent.  Committing the same ordered sequence
    of sealed blocks a second time, on the committer as the first commit
    left it (next batch number advanced, first batch kept for delivery),
    produces the same commitment value over the same ordered block roots;
    only the batch number differs.  The commitment does not depend on
    the committer it is computed by. *)
Theorem commit_idempotent :
  forall (c : BatchCommitter) (blocks : list Block),
  commitment (snd (commit (fst (commit c blocks)) blocks)) =
    commitment (snd (commit c blocks)) /\
  orderedBlockRoots (snd (commit (fst (commit c blocks)) blocks)) =
    orderedBlockRoots (snd (commit c blocks)) /\
  batchId (snd (commit (fst (commit c blocks)) blocks)) =
    S (batchId (snd (commit c blocks))) /\
  (forall c', commitment (snd (commit c' blocks)) =
              commitment (snd (commit c blocks))) /\
  commitment (snd (commit c blocks)) =
    fold_left chain (map postStateRoot blocks) (repeat x00 32).
Proof.
  intros c blocks. unfold commit; cbn [fst snd commitment orderedBlockRoots
                                        batchId nextBatchId].
  repeat split; reflexivity.
Qed.

(* ===================================================================== *)
(** * Sequences of counter actions *)
(* ===================================================================== *)

(** The statements below that need the counter to move by exactly one
    are made for values up to [Number.MAX_SAFE_INTEGER = 2^53 - 1],
    where adding and subtracting [1] is exact and the value has a
    [uint256] encoding. *)

Lemma safe_below_uint256 : 2 ^ 53 - 1 < 2 ^ 256.
Proof. reflexivity. Qed.

Lemma submit_all_cons (s : Z) (a : Action) (rest : list Action) :
  submit_all s (a :: rest) =
  (fst (submit_all (commit_state s (apply s a)) rest),
   apply s a :: snd (submit_all (commit_state s (apply s a)) rest)).
Proof.
  cbn [submit_all].
  destruct (submit_all (commit_state s (apply s a)) rest). reflexivity.
Qed.

Lemma apply_increment_in_range (s : Z) (a : Action) :
  action_name a = "increment" -> 0 <= s + 1 <= 2 ^ 53 ->
  apply s a = inr (s + 1, Keccak.keccak256 (be_bytes 32 (s + 1))).
Proof.
  intros Hn Hs. pose proof safe_below_uint256.
  rewrite (apply_increment s a Hn), add_exact by lia.
  now rewrite getRootHash_in_range by lia.
Qed.

Lemma apply_decrement_in_range (s : Z) (a : Action) :
  action_name a = "decrement" -> 2 <= s <= 2 ^ 53 ->
  apply s a = inr (s - 1, Keccak.keccak256 (be_bytes 32 (s - 1))).
Proof.
  intros Hn Hs. pose proof safe_below_uint256.
  rewrite (apply_decrement_ok s a Hn), sub_exact by lia.
  now rewrite getRootHash_in_range by lia.
Qed.

(** Up to [2^53 - 1], one action moves the counter by at most one,
    upwards only for an increment and downwards only for a decrement. *)
Lemma commit_state_cases (s : Z) (a : Action) :
  s <= 2 ^ 53 - 1 ->
  commit_state s (apply s a) = s \/
  (action_name a = "increment" /\ commit_state s (apply s a) = s + 1 /\
   -1 <= s) \/
  (action_name a = "decrement" /\ commit_state s (apply s a) = s - 1 /\
   2 <= s).
Proof.
  intros Hmax.
  destruct (apply s a) as [e | [newState root]] eqn:H; cbn [commit_state].
  - left. reflexivity.
  - apply apply_accepted in H. destruct H as [Hroot [[Hn ->] | [Hn [-> Hs]]]].
    + right. left. apply getRootHash_some in Hroot. destruct Hroot as [Hr _].
      assert (Hs : -1 <= s).
      { destruct (Z_lt_ge_dec s (-1)) as [Hlt | Hge]; [| lia].
        pose proof (round_neg (s + 1) ltac:(lia)) as Hneg.
        unfold JSNumber.add in Hr. lia. }
      rewrite add_exact by lia. auto.
    + right. right. rewrite sub_exact by lia. auto.
Qed.

Lemma submit_all_positive (actions : list Action) :
  forall s, 1 <= s -> 1 <= fst (submit_all s actions).
Proof.
  induction actions as [| a rest IH]; intros s Hs.
  - exact Hs.
  - rewrite submit_all_cons. cbn [fst]. apply IH.
    destruct (apply s a) as [e | [newState root]] eqn:H; cbn [commit_state].
    + exact Hs.
    + apply (apply_accepted_positive s a newState root H). lia.
Qed.

(** X1: the counter never returns to zero.  From a state of [1] or more
    no sequence of actions takes the counter below [1], and a decrement
    that succeeds never returns less than [1]. *)
Theorem counter_never_returns_to_zero :
  forall (s : Z) (actions : list Action),
  1 <= s ->
  1 <= fst (submit_all s actions) /\
  (forall s' i r, run_handler decrement s' i = inr r -> 1 <= r).
Proof.
  intros s actions Hs.
  split; [apply submit_all_positive, Hs |].
  intros s' i r Hr. destruct (Z_lt_ge_dec s' 2) as [Hlt | Hge].
  - rewrite run_decrement_fails in Hr by exact Hlt. discriminate.
  - rewrite run_decrement_ok in Hr by lia. inversion Hr.
    apply round_pos. lia.
Qed.

Lemma counter_stays_positive_after_first_increment :
  1 <= 1 /\
  1 <= fst (submit_all 1 [ action "decrement" 10; action "decrement" 11;
                           action "increment" 12; action "decrement" 13;
                           action "decrement" 14 ]).
Proof.
  split; [lia |].
  apply (counter_never_returns_to_zero 1). lia.
Defined.

(** X2: from genesis, the counter is [0] after a sequence of actions
    exactly when none of them was accepted: the first accepted action is
    an increment, and the counter is at least [1] from then on. *)
Theorem genesis_zero_iff_nothing_accepted (actions : list Action) :
  fst (submit_all genesis actions) = 0 <->
  existsb accepted (snd (submit_all genesis actions)) = false.
Proof.
  unfold genesis. induction actions as [| a rest IH].
  - cbn. tauto.
  - rewrite submit_all_cons. cbn [fst snd existsb].
    destruct (apply 0 a) as [e | [newState root]] eqn:H;
      cbn [commit_state accepted orb].
    + exact IH.
    + pose proof (apply_accepted_positive 0 a newState root H ltac:(lia))
        as Hpos.
      pose proof (submit_all_positive rest newState Hpos).
      split; [lia | discriminate].
Qed.

(** X3: increment then decrement, and decrement then increment.  On a
    state [s] between [0] and [2^53 - 2], submitting an increment and
    then a decrement returns the counter to [s] exactly when [s >= 1],
    and both actions are then accepted; submitting a decrement and then
    an increment returns it to [s] exactly when [s >= 2]. *)
Theorem increment_decrement_round_trip :
  forall (s : Z) (inc dec : Action),
  action_name inc = "increment" ->
  action_name dec = "decrement" ->
  0 <= s <= 2 ^ 53 - 2 ->
  (fst (submit_all s [inc; dec]) = s <-> 1 <= s) /\
  (1 <= s -> map accepted (snd (submit_all s [inc; dec])) = [true; true]) /\
  (fst (submit_all s [dec; inc]) = s <-> 2 <= s) /\
  (2 <= s -> map accepted (snd (submit_all s [dec; inc])) = [true; true]).
Proof.
  intros s inc dec Hinc Hdec Hs.
  pose proof safe_below_uint256 as Hsafe.
  rewrite !submit_all_cons. cbn [submit_all fst snd map].
  rewrite (apply_increment_in_range s inc Hinc) by lia.
  cbn [commit_state accepted].
  destruct (Z_lt_ge_dec s 1) as [H0 | H1].
  - (* s = 0 *)
    rewrite (apply_decrement_fails (s + 1) dec Hdec) by lia.
    rewrite (apply_decrement_fails s dec Hdec) by lia.
    cbn [commit_state accepted].
    rewrite (apply_increment_in_range s inc Hinc) by lia.
    cbn [commit_state]. repeat split; intros; lia.
  - rewrite (apply_decrement_in_range (s + 1) dec Hdec) by lia.
    cbn [commit_state accepted].
    destruct (Z_lt_ge_dec s 2) as [Hlt | Hge].
    + rewrite (apply_decrement_fails s dec Hdec) by lia.
      cbn [commit_state accepted].
      rewrite (apply_increment_in_range s inc Hinc) by lia.
      cbn [commit_state]. repeat split; intros; try lia; reflexivity.
    + rewrite (apply_decrement_in_range s dec Hdec) by lia.
      cbn [commit_state accepted].
      rewrite (apply_increment_in_range (s - 1) inc Hinc) by lia.
      cbn [commit_state accepted]. repeat split; intros; try lia; reflexivity.
Qed.

Lemma increment_decrement_round_trip_at_five :
  fst (submit_all 5 [action "increment" 1; action "decrement" 2]) = 5 <->
  1 <= 5.
Proof.
  exact (proj1 (increment_decrement_round_trip 5
                  (action "increment" 1) (action "decrement" 2)
                  eq_refl eq_refl ltac:(lia))).
Defined.

(** X4: the order of an increment and a decrement matters at state [1]
    and nowhere else.  On a state between [0] and [2^53 - 2], submitting
    increment then decrement and submitting decrement then increment end
    in the same state exactly when the state is not [1]; from [1] the
    first order ends in [1] and the second in [2]. *)
Theorem increment_decrement_order_matters_only_at_one :
  forall (s : Z) (inc dec : Action),
  action_name inc = "increment" ->
  action_name dec = "decrement" ->
  0 <= s <= 2 ^ 53 - 2 ->
  (fst (submit_all s [inc; dec]) = fst (submit_all s [dec; inc]) <-> s <> 1) /\
  (s = 1 -> fst (submit_all s [inc; dec]) = 1 /\
            fst (submit_all s [dec; inc]) = 2).
Proof.
  intros s inc dec Hinc Hdec Hs.
  pose proof safe_below_uint256 as Hsafe.
  rewrite !submit_all_cons. cbn [submit_all fst].
  rewrite (apply_increment_in_range s inc Hinc) by lia.
  cbn [commit_state].
  destruct (Z_lt_ge_dec s 2) as [Hlt | Hge].
  - rewrite (apply_decrement_fails s dec Hdec) by lia.
    cbn [commit_state].
    rewrite (apply_increment_in_range s inc Hinc) by lia.
    cbn [commit_state].
    destruct (Z_lt_ge_dec s 1) as [H0 | H1].
    + rewrite (apply_decrement_fails (s + 1) dec Hdec) by lia.
      cbn [commit_state]. repeat split; intros; lia.
    + rewrite (apply_decrement_in_range (s + 1) dec Hdec) by lia.
      cbn [commit_state]. repeat split; intros; lia.
  - rewrite (apply_decrement_in_range (s + 1) dec Hdec) by lia.
    rewrite (apply_decrement_in_range s dec Hdec) by lia.
    cbn [commit_state].
    rewrite (apply_increment_in_range (s - 1) inc Hinc) by lia.
    cbn [commit_state]. repeat split; intros; lia.
Qed.

Lemma increment_decrement_order_at_one :
  fst (submit_all 1 [action "increment" 1; action "decrement" 2]) = 1 /\
  fst (submit_all 1 [action "decrement" 2; action "increment" 1]) = 2.
Proof.
  exact (proj2 (increment_decrement_order_matters_only_at_one 1
                  (action "increment" 1) (action "decrement" 2)
                  eq_refl eq_refl ltac:(lia)) eq_refl).
Defined.

(** X5: increments add up.  A sequence of [n] increment actions
    submitted on a state [s >= 0] with [s + n <= 2^53 - 1] is accepted
    in full and leaves the counter at [s + n]; the root returned with
    each action is the root hash of the state it produced. *)
Theorem increments_add_their_number (actions : list Action) :
  forall (s : Z),
  Forall (fun a => action_name a = "increment") actions ->
  0 <= s ->
  s + Z.of_nat (List.length actions) <= 2 ^ 53 - 1 ->
  fst (submit_all s actions) = s + Z.of_nat (List.length actions) /\
  snd (submit_all s actions) =
    map (fun k => inr (s + Z.of_nat k,
                       Keccak.keccak256 (be_bytes 32 (s + Z.of_nat k))))
        (seq 1 (List.length actions)).
Proof.
  pose proof safe_below_uint256 as Hsafe.
  induction actions as [| a rest IH]; intros s Hall Hs Hmax.
  - cbn. split; [lia | reflexivity].
  - inversion Hall as [| ? ? Ha Hrest]; subst.
    cbn [List.length] in Hmax.
    rewrite submit_all_cons.
    rewrite (apply_increment_in_range s a Ha) by lia.
    cbn [commit_state fst snd].
    destruct (IH (s + 1) Hrest ltac:(lia) ltac:(lia)) as [Hfinal Houtcomes].
    rewrite Hfinal, Houtcomes. cbn [List.length seq map].
    split; [lia |].
    rewrite <- (seq_shift (List.length rest) 1), map_map.
    change (Z.of_nat 1) with 1. f_equal.
    apply map_ext. intros k.
    replace (s + 1 + Z.of_nat k) with (s + Z.of_nat (S k)) by lia.
    reflexivity.
Qed.

Lemma three_increments_from_genesis :
  fst (submit_all genesis
         [action "increment" 1; action "increment" 2; action "increment" 3])
  = genesis + 3.
Proof.
  refine (proj1 (increments_add_their_number
                   [action "increment" 1; action "increment" 2;
                    action "increment" 3] genesis _ _ _)).
  - repeat constructor.
  - unfold genesis. lia.
  - unfold genesis. cbn [List.length]. lia.
Defined.

(** X6: decrements stop at one.  A sequence of [n] decrement actions
    submitted on a state [s <= 2^53 - 1] leaves the counter at [s] when
    [s <= 1] (none is accepted) and at [max 1 (s - n)] otherwise: the
    counter comes down to [1] and stays there. *)
Theorem decrements_saturate_at_one (actions : list Action) :
  forall (s : Z),
  Forall (fun a => action_name a = "decrement") actions ->
  s <= 2 ^ 53 - 1 ->
  fst (submit_all s actions) =
    if s <=? 1 then s else Z.max 1 (s - Z.of_nat (List.length actions)).
Proof.
  pose proof safe_below_uint256 as Hsafe.
  induction actions as [| a rest IH]; intros s Hall Hmax.
  - cbn. destruct (Z.leb_spec s 1); lia.
  - inversion Hall as [| ? ? Ha Hrest]; subst.
    rewrite submit_all_cons. cbn [fst List.length].
    destruct (Z.leb_spec s 1) as [Hlow | Hhigh].
    + rewrite (apply_decrement_fails s a Ha) by lia. cbn [commit_state].
      rewrite (IH s Hrest Hmax).
      destruct (Z.leb_spec s 1); [reflexivity | lia].
    + rewrite (apply_decrement_in_range s a Ha) by lia. cbn [commit_state].
      rewrite (IH (s - 1) Hrest ltac:(lia)).
      destruct (Z.leb_spec (s - 1) 1); lia.
Qed.

Lemma seven_decrements_from_five :
  fst (submit_all 5 (repeat (action "decrement" 1) 7)) = 1.
Proof.
  refine (decrements_saturate_at_one (repeat (action "decrement" 1) 7) 5 _ _).
  - repeat constructor.
  - lia.
Defined.

(** X7: the counter moves within the number of actions of each kind.
    After a sequence of [n] actions submitted on a state [s] with
    [s + n <= 2^53 - 1], the counter is at most [s] plus the number of
    actions named "increment" and at least [s] minus the number of
    actions named "decrement"; and actions of any other name never move
    it: the counter ends where it ends when those actions are left out
    of the sequence. *)
Theorem counter_moves_within_action_counts (actions : list Action) :
  forall (s : Z),
  s + Z.of_nat (List.length actions) <= 2 ^ 53 - 1 ->
  s - Z.of_nat (List.length
                  (filter (fun a => String.eqb (action_name a) "decrement")
                          actions))
    <= fst (submit_all s actions)
    <= s + Z.of_nat (List.length
                       (filter (fun a => String.eqb (action_name a) "increment")
                               actions)) /\
  fst (submit_all s actions) =
    fst (submit_all s
           (filter (fun a => String.eqb (action_name a) "increment" ||
                             String.eqb (action_name a) "decrement")
                   actions)).
Proof.
  induction actions as [| a rest IH]; intros s Hmax.
  - cbn. split; [lia | reflexivity].
  - cbn [List.length] in Hmax. split.
    + rewrite submit_all_cons. cbn [fst filter].
      destruct (commit_state_cases s a ltac:(lia))
        as [E | [[Hn [E ?]] | [Hn [E ?]]]];
        destruct (IH (commit_state s (apply s a)) ltac:(lia)) as [Hb _];
        rewrite E in *; clear E.
      * destruct (String.eqb (action_name a) "decrement");
          destruct (String.eqb (action_name a) "increment");
          cbn [List.length]; lia.
      * rewrite Hn.
        change (String.eqb "increment" "decrement") with false.
        change (String.eqb "increment" "increment") with true.
        cbn [List.length]. lia.
      * rewrite Hn.
        change (String.eqb "decrement" "decrement") with true.
        change (String.eqb "decrement" "increment") with false.
        cbn [List.length]. lia.
    + cbn [filter].
      destruct (String.eqb_spec (action_name a) "increment") as [Ei | Ni];
        [| destruct (String.eqb_spec (action_name a) "decrement")
             as [Ed | Nd]]; cbn [orb].
      * rewrite !submit_all_cons. cbn [fst].
        apply (IH (commit_state s (apply s a))).
        destruct (commit_state_cases s a ltac:(lia))
          as [E | [[_ [E ?]] | [_ [E ?]]]]; rewrite E; lia.
      * rewrite !submit_all_cons. cbn [fst].
        apply (IH (commit_state s (apply s a))).
        destruct (commit_state_cases s a ltac:(lia))
          as [E | [[_ [E ?]] | [_ [E ?]]]]; rewrite E; lia.
      * rewrite submit_all_cons. cbn [fst].
        rewrite (apply_unknown s a Ni Nd). cbn [commit_state].
        apply (IH s). lia.
Qed.

Lemma counter_after_mixed_actions_from_five :
  fst (submit_all 5 [ action "decrement" 1; action "reset" 2;
                      action "increment" 3; action "decrement" 4 ]) =
  fst (submit_all 5 [ action "decrement" 1; action "increment" 3;
                      action "decrement" 4 ]).
Proof.
  refine (proj2 (counter_moves_within_action_counts
                   [ action "decrement" 1; action "reset" 2;
                     action "increment" 3; action "decrement" 4 ] 5 _)).
  cbn [List.length]. lia.
Defined.

(** X8: every state the counter reaches has a root hash.  On a state
    [s >= 0], after any sequence of [n] actions with [s + n <= 2^53 - 1],
    the counter is a value whose [uint256] packing is defined, so
    [getRootHash] returns a 32-byte hash for it; and no action of the
    sequence ends in a fatal error: each is accepted, or rejected by a
    failed [REQUIRE] or for an unknown transition name. *)
Theorem reached_states_have_root_hash (actions : list Action) :
  forall (s : Z),
  0 <= s ->
  s + Z.of_nat (List.length actions) <= 2 ^ 53 - 1 ->
  (exists h,
     getRootHash {| state := fst (submit_all s actions) |} = Some h /\
     List.length h = 32%nat) /\
  Forall (fun r => r <> inl FatalExecutionError) (snd (submit_all s actions)).
Proof.
  pose proof safe_below_uint256 as Hsafe.
  induction actions as [| a rest IH]; intros s Hs Hmax.
  - cbn [submit_all fst snd List.length] in *. split; [| constructor].
    exists (Keccak.keccak256 (be_bytes 32 s)).
    split; [apply getRootHash_in_range; lia | apply keccak256_length].
  - cbn [List.length] in Hmax. rewrite submit_all_cons. cbn [fst snd].
    assert (Hnext : 0 <= commit_state s (apply s a) <= s + 1).
    { destruct (commit_state_cases s a ltac:(lia))
        as [-> | [[_ [-> ?]] | [_ [-> ?]]]]; lia. }
    destruct (IH (commit_state s (apply s a)) ltac:(lia) ltac:(lia))
      as [Hroot Hall].
    split; [exact Hroot |].
    constructor; [| exact Hall].
    destruct (String.eqb_spec "increment" (action_name a)) as [Ei | Ni].
    + rewrite (apply_increment_in_range s a (eq_sym Ei)) by lia. discriminate.
    + destruct (String.eqb_spec "decrement" (action_name a)) as [Ed | Nd].
      * destruct (Z_lt_ge_dec s 2) as [Hlt | Hge].
        -- rewrite (apply_decrement_fails s a (eq_sym Ed) Hlt). discriminate.
        -- rewrite (apply_decrement_in_range s a (eq_sym Ed)) by lia.
           discriminate.
      * rewrite apply_unknown by congruence. discriminate.
Qed.

Lemma reached_state_has_root_hash_after_mixed_actions :
  exists h,
    getRootHash
      {| state := fst (submit_all genesis
                         [ action "decrement" 1; action "increment" 2;
                           action "reset" 3; action "increment" 4;
                           action "decrement" 5 ]) |} = Some h /\
    List.length h = 32%nat.
Proof.
  refine (proj1 (reached_states_have_root_hash
                   [ action "decrement" 1; action "increment" 2;
                     action "reset" 3; action "increment" 4;
                     action "decrement" 5 ] genesis _ _)).
  - unfold genesis. lia.
  - unfold genesis. cbn [List.length]. lia.
Defined.
